(** * Positional inverted index and phrase queries

    A shallow embedding of the code cells of
    [IR_InvertedMatrix_Workshop.ipynb] that clean and tokenize text, build
    a positional inverted index and answer exact-phrase queries:

    - the "Step 1" cell: [clean_text];
    - the "Step 2" cell: [basic_tokenizer];
    - the "Step 3" cell: [normalize_tokens], written in two passes;
    - the "Step 4" cell: [normalize_tokens], [build_inverted_index] (which
      also keeps a [seen_in_doc] set), [phrase_in_doc], [phrase_search];
    - the "Test: Phrase Queries" cell: [basic_tokenizer] and its own
      [build_inverted_index], [phrase_in_doc], [phrase_search].

    Python values are modelled as follows: [str] as [string] (ASCII text),
    [int] as [Z], [list] as [list], [dict] as [gmap], [set] as [gset], and a
    call that may raise as a value of [result]. *)

From stdpp Require Import gmap strings list fin_maps sorting.
From Stdlib Require Import ZArith Lia.

Open Scope Z_scope.

(** ** Python results: a value or a raised exception *)

Inductive exn := IndexError.

Inductive result (A : Type) :=
  | Ok (a : A)
  | Raise (e : exn).
Arguments Ok {A} a.
Arguments Raise {A} e.

Definition result_bind {A B} (f : A → result B) (r : result A) : result B :=
  match r with
  | Ok a => f a
  | Raise e => Raise e
  end.

#[global] Instance result_mbind : MBind result := @result_bind.

#[global] Instance exn_eq_dec : EqDecision exn.
Proof. solve_decision. Defined.

#[global] Instance result_eq_dec {A} `{EqDecision A} : EqDecision (result A).
Proof. solve_decision. Defined.

(** ** Python built-ins used by the cells *)

(** [len(l)] *)
Definition len {A} (l : list A) : Z := Z.of_nat (length l).

(** [range(lo, hi)] *)
Definition range (lo hi : Z) : list Z :=
  (λ i : nat, lo + Z.of_nat i) <$> seq 0 (Z.to_nat (hi - lo)).

(** [enumerate(l)], counting from [start] *)
Fixpoint enumerate_from {A} (start : Z) (l : list A) : list (Z * A) :=
  match l with
  | [] => []
  | x :: l' => (start, x) :: enumerate_from (start + 1) l'
  end.

Definition enumerate {A} (l : list A) : list (Z * A) := enumerate_from 0 l.

(** [l[i]]: a negative index counts from the end, an index out of range
    raises [IndexError]. *)
Definition getitem {A} (l : list A) (i : Z) : result A :=
  let j := if decide (i < 0) then len l + i else i in
  if decide (j < 0) then Raise IndexError
  else match l !! Z.to_nat j with
       | Some x => Ok x
       | None => Raise IndexError
       end.

(** [all(f(x) for x in l)]: stops at the first false element; an exception
    raised by an element that is evaluated propagates. *)
Fixpoint all_of {A} (f : A → result bool) (l : list A) : result bool :=
  match l with
  | [] => Ok true
  | x :: l' =>
      b ← f x;
      if (b : bool) then all_of f l' else Ok false
  end.

(** ** Text front-end: [lower], [re.sub], [split] on ASCII text *)

Definition code (c : Ascii.ascii) : N := Ascii.N_of_ascii c.

(** [str.lower] on one ASCII character *)
Definition lower_char (c : Ascii.ascii) : Ascii.ascii :=
  if ((65 <=? code c) && (code c <=? 90))%N
  then Ascii.ascii_of_N (code c + 32)
  else c.

Fixpoint lower (text : string) : string :=
  match text with
  | EmptyString => EmptyString
  | String c rest => String (lower_char c) (lower rest)
  end.

(** [\s] and the separators of [str.split()]: tab, line feed, vertical
    tab, form feed, carriage return, the four separators 28..31, space. *)
Definition is_space (c : Ascii.ascii) : bool :=
  (((9 <=? code c) && (code c <=? 13))
   || ((28 <=? code c) && (code c <=? 32)))%N.

(** the class [[a-z0-9\s]] *)
Definition is_kept (c : Ascii.ascii) : bool :=
  (((97 <=? code c) && (code c <=? 122))
   || ((48 <=? code c) && (code c <=? 57)))%N
  || is_space c.

(** [re.sub(r'[^a-z0-9\s]', '', text)] *)
Fixpoint strip_other (text : string) : string :=
  match text with
  | EmptyString => EmptyString
  | String c rest =>
      if is_kept c then String c (strip_other rest) else strip_other rest
  end.

(** [text.split()]: the maximal runs of non-space characters, in order;
    [word] is the run being read. *)
Fixpoint split_from (word : string) (text : string) : list string :=
  match text with
  | EmptyString => if decide (word = EmptyString) then [] else [word]
  | String c rest =>
      if is_space c
      then (if decide (word = EmptyString) then split_from EmptyString rest
            else word :: split_from EmptyString rest)
      else split_from (word +:+ String c EmptyString) rest
  end.

Definition split (text : string) : list string := split_from EmptyString text.

(** ** The index *)

(** [term -> doc_id -> positions] *)
Abbreviation index := (gmap string (gmap Z (list Z))).

(** The three statements that both [build_inverted_index] definitions run
    for a [(pos, token)] pair of document [doc_id]:
<<
    if token not in inverted_index: inverted_index[token] = {}
    if doc_id not in inverted_index[token]: inverted_index[token][doc_id] = []
    inverted_index[token][doc_id].append(pos)
>> *)
Definition append_position
    (inverted_index : index) (token : string) (doc_id pos : Z) : index :=
  let inverted_index :=
    match inverted_index !! token with
    | None => <[token := ∅]> inverted_index
    | Some _ => inverted_index
    end in
  let postings : gmap Z (list Z) := default ∅ (inverted_index !! token) in
  let postings :=
    match postings !! doc_id with
    | None => <[doc_id := []]> postings
    | Some _ => postings
    end in
  let positions := default [] (postings !! doc_id) in
  <[token := <[doc_id := positions ++ [pos]]> postings]> inverted_index.

(** ** Phrase matching ([phrase_in_doc] is the same in both cells) *)

(** The first loop of [phrase_in_doc]; [None] is its [return False]. *)
Fixpoint gather_positions
    (inverted_index : index) (doc_id : Z) (phrase_tokens : list string)
    (positions_lists : list (list Z)) : option (list (list Z)) :=
  match phrase_tokens with
  | [] => Some positions_lists
  | token :: phrase_tokens' =>
      match inverted_index !! token with
      | None => None
      | Some postings =>
          match postings !! doc_id with
          | None => None
          | Some positions =>
              gather_positions inverted_index doc_id phrase_tokens'
                (positions_lists ++ [positions])
          end
      end
  end.

(** [(start_pos + offset) in positions_lists[offset]] *)
Definition follows
    (positions_lists : list (list Z)) (start_pos offset : Z) : result bool :=
  positions ← getitem positions_lists offset;
  Ok (bool_decide (start_pos + offset ∈ (positions : list Z))).

(** The second loop of [phrase_in_doc], over the anchor candidates. *)
Fixpoint scan_anchors
    (positions_lists : list (list Z)) (first_positions : list Z)
    : result bool :=
  match first_positions with
  | [] => Ok false
  | start_pos :: first_positions' =>
      b ← all_of (follows positions_lists start_pos)
                 (range 1 (len positions_lists));
      if (b : bool) then Ok true
      else scan_anchors positions_lists first_positions'
  end.

Definition phrase_in_doc
    (inverted_index : index) (phrase_tokens : list string) (doc_id : Z)
    : result bool :=
  match gather_positions inverted_index doc_id phrase_tokens [] with
  | None => Ok false
  | Some positions_lists =>
      first_positions ← getitem positions_lists 0;
      scan_anchors positions_lists first_positions
  end.

(** The loop of [phrase_search] over [range(len(docs))]. *)
Fixpoint search_docs
    (inverted_index : index) (phrase_tokens : list string)
    (doc_ids : list Z) (matched_docs : list Z) : result (list Z) :=
  match doc_ids with
  | [] => Ok matched_docs
  | doc_id :: doc_ids' =>
      b ← phrase_in_doc inverted_index phrase_tokens doc_id;
      search_docs inverted_index phrase_tokens doc_ids'
        (if (b : bool) then matched_docs ++ [doc_id] else matched_docs)
  end.

(** ** The "Step 1" cell ([clean_text]) *)

Module Step1.
(** the class [\w] on ASCII text: letters, digits and the underscore *)
Definition is_word (c : Ascii.ascii) : bool :=
  (((97 <=? code c) && (code c <=? 122))
   || ((65 <=? code c) && (code c <=? 90))
   || ((48 <=? code c) && (code c <=? 57))
   || (code c =? 95))%N.

(** [re.sub(r'\W+', ' ', text)]: every maximal run of non-word characters
    becomes one space; [in_run] tells that the run being read has already
    been replaced. *)
Fixpoint sub_nonword (in_run : bool) (text : string) : string :=
  match text with
  | EmptyString => EmptyString
  | String c rest =>
      if is_word c then String c (sub_nonword false rest)
      else if in_run then sub_nonword true rest
      else String Ascii.Space (sub_nonword true rest)
  end.

Definition clean_text (text : string) : string :=
  let text := sub_nonword false text in
  lower text.
End Step1.

(** ** The "Step 2" cell ([basic_tokenizer]) *)

Module Step2.
Definition basic_tokenizer (text : string) : list string :=
  let text := lower text in
  let text := strip_other text in
  let tokens := split text in
  tokens.
End Step2.

(** ** The "Step 3" cell ([normalize_tokens], in two passes) *)

Module Step3.
Section Step3.
Variable stop_words : gset string.
Variable stem : string → string.

Definition normalize_tokens (text : string) : list string :=
  let text := lower text in
  let text := strip_other text in
  let tokens := split text in
  let filtered_tokens := filter (λ word, word ∉ stop_words) tokens in
  let stemmed_tokens := stem <$> filtered_tokens in
  stemmed_tokens.
End Step3.
End Step3.

(** ** The "Step 4" cell *)

Module Step4.
Section Step4.
(** [set(stopwords.words('english'))] and [PorterStemmer().stem] come
    from NLTK; they are parameters here. *)
Variable stop_words : gset string.
Variable stem : string → string.

Definition normalize_tokens (text : string) : list string :=
  let text := lower text in
  let text := strip_other text in
  let tokens := split text in
  stem <$> filter (λ t, t ∉ stop_words) tokens.

(** The inner loop, with its [seen_in_doc] set. *)
Definition index_tokens
    (inverted_index : index) (doc_id : Z) (tokens : list string)
    : index * gset string :=
  foldl (λ '(inverted_index, seen_in_doc) '(pos, token),
           (append_position inverted_index token doc_id pos,
            {[token]} ∪ seen_in_doc))
        (inverted_index, ∅) (enumerate tokens).

Definition build_inverted_index (docs : list string) : index :=
  foldl (λ inverted_index '(doc_id, text),
           let tokens := normalize_tokens text in
           fst (index_tokens inverted_index doc_id tokens))
        ∅ (enumerate docs).

Definition phrase_in_doc := phrase_in_doc.

Definition phrase_search
    (inverted_index : index) (phrase : string) (docs : list string)
    : result (list Z) :=
  let phrase_tokens := normalize_tokens phrase in
  search_docs inverted_index phrase_tokens (range 0 (len docs)) [].
End Step4.
End Step4.

(** ** The "Test: Phrase Queries" cell *)

Module PhraseTest.
Definition basic_tokenizer (text : string) : list string :=
  let text := lower text in
  let text := strip_other text in
  split text.

Definition index_tokens
    (inverted_index : index) (doc_id : Z) (tokens : list string) : index :=
  foldl (λ inverted_index '(pos, token),
           append_position inverted_index token doc_id pos)
        inverted_index (enumerate tokens).

Definition build_inverted_index (docs : list string) : index :=
  foldl (λ inverted_index '(doc_id, text),
           let tokens := basic_tokenizer text in
           index_tokens inverted_index doc_id tokens)
        ∅ (enumerate docs).

Definition phrase_in_doc := phrase_in_doc.

Definition phrase_search
    (inverted_index : index) (phrase : string) (docs : list string)
    : result (list Z) :=
  let phrase_tokens := basic_tokenizer phrase in
  search_docs inverted_index phrase_tokens (range 0 (len docs)) [].

(** The sample collection of the cell. *)
Definition docs : list string :=
  [ "Machine learning is fascinating.";
    "Deep learning is a subset of machine learning.";
    "Artificial intelligence includes machine learning.";
    "Learning about machine algorithms." ]%string.
End PhraseTest.

(** ** Vocabulary of the statements *)

(** The position list stored for [token] and [doc_id], if any:
    [inverted_index[token][doc_id]]. *)
Definition lookup_positions
    (inverted_index : index) (token : string) (doc_id : Z)
    : option (list Z) :=
  inverted_index !! token ≫= λ postings : gmap Z (list Z), postings !! doc_id.

(** The offsets, counted from [start], at which [token] occurs in
    [tokens], in scan order. *)
Fixpoint occurrences
    (token : string) (start : Z) (tokens : list string) : list Z :=
  match tokens with
  | [] => []
  | t :: tokens' =>
      if decide (t = token) then start :: occurrences token (start + 1) tokens'
      else occurrences token (start + 1) tokens'
  end.

(** The normalized token stream of document [doc_id] of [docs]; empty when
    [docs] has no such document. *)
Definition doc_tokens
    (normalize : string → list string) (docs : list string) (doc_id : Z)
    : list string :=
  if decide (0 ≤ doc_id)
  then from_option normalize [] (docs !! Z.to_nat doc_id)
  else [].

(** Both builders are instances of one double loop over a normalizer;
    [build_from] starts from any index and any first document id. *)
Definition build_from
    (normalize : string → list string)
    (inverted_index : index) (start : Z) (docs : list string) : index :=
  foldl (λ inverted_index '(doc_id, text),
           PhraseTest.index_tokens inverted_index doc_id (normalize text))
        inverted_index (enumerate_from start docs).

(** Appending [more] positions to an entry that may not exist yet. *)
Definition extend (entry : option (list Z)) (more : list Z)
    : option (list Z) :=
  match more with
  | [] => entry
  | _ => Some (default [] entry ++ more)
  end.

(** The check made for one anchor, as a boolean. *)
Definition anchor_ok (positions_lists : list (list Z)) (start_pos : Z) : bool :=
  forallb (λ offset,
             bool_decide
               (start_pos + offset
                  ∈ default [] (positions_lists !! Z.to_nat offset)))
          (range 1 (len positions_lists)).

(** The ascending enumeration of the document ids of [[0, n)] on which
    [phrase_in_doc] returns [True]. *)
Definition matching_ids
    (inverted_index : index) (phrase_tokens : list string) (n : Z) : list Z :=
  filter (λ d, phrase_in_doc inverted_index phrase_tokens d = Ok true)
         (range 0 n).

(** [phrase] occurs in [tokens] as a run of adjacent tokens. *)
Definition occurs_contiguously (phrase tokens : list string) : Prop :=
  ∃ before after, tokens = before ++ phrase ++ after.

(** Every character of [text] satisfies [p]. *)
Fixpoint string_forall (p : Ascii.ascii → bool) (text : string) : bool :=
  match text with
  | EmptyString => true
  | String c rest => p c && string_forall p rest
  end.


(** ASCII letters and digits of either case. *)
Definition is_alnum (c : Ascii.ascii) : bool :=
  (((97 <=? code c) && (code c <=? 122))
   || ((65 <=? code c) && (code c <=? 90))
   || ((48 <=? code c) && (code c <=? 57)))%N.

(** The characters [clean_text] leaves in ASCII text. *)
Definition is_clean (c : Ascii.ascii) : bool :=
  (((97 <=? code c) && (code c <=? 122))
   || ((48 <=? code c) && (code c <=? 57))
   || (code c =? 95) || (code c =? 32))%N.

(** [text] is ASCII text: every character code is below 128. *)
Definition ascii_text (text : string) : Prop :=
  string_forall (λ c, (code c <? 128)%N) text = true.

(** [text] begins with a space. *)
Definition starts_with_space (text : string) : bool :=
  match text with
  | EmptyString => false
  | String c _ => (code c =? 32)%N
  end.

(** [text] has two adjacent spaces somewhere. *)
Fixpoint has_double_space (text : string) : bool :=
  match text with
  | EmptyString => false
  | String c rest =>
      ((code c =? 32)%N && starts_with_space rest) || has_double_space rest
  end.


(** A small stop-word set for examples. *)
Definition sample_stop_words : gset string := {[ "the"; "of" ]}.

(** Every key of the index has an entry for some document. *)
Definition keys_inhabited (inverted_index : index) : Prop :=
  ∀ token, is_Some (inverted_index !! token) →
    ∃ doc_id, is_Some (lookup_positions inverted_index token doc_id).

(** * Proofs *)

(** ** The cells on small inputs *)

Example basic_tokenizer_sample :
  PhraseTest.basic_tokenizer "Deep learning is a subset of machine learning."
    = ["deep"; "learning"; "is"; "a"; "subset"; "of"; "machine"; "learning"].
Proof. reflexivity. Qed.

Example basic_tokenizer_punctuation :
  PhraseTest.basic_tokenizer "  Don't  stop-me,	now!  "
    = ["dont"; "stopme"; "now"].
Proof. reflexivity. Qed.

Example normalize_tokens_sample :
  Step4.normalize_tokens sample_stop_words id "The cat of THE cat"
    = ["cat"; "cat"].
Proof. vm_compute. reflexivity. Qed.

Example build_sample_learning :
  lookup_positions (PhraseTest.build_inverted_index PhraseTest.docs)
    "learning" 1 = Some [1; 7].
Proof. vm_compute. reflexivity. Qed.

Example build_sample_deep :
  (λ d, lookup_positions (PhraseTest.build_inverted_index PhraseTest.docs)
          "deep" d) <$> [0; 1; 2; 3]
    = [None; Some [0]; None; None].
Proof. vm_compute. reflexivity. Qed.

Example phrase_in_doc_order_matters :
  PhraseTest.phrase_in_doc (PhraseTest.build_inverted_index PhraseTest.docs)
    ["machine"; "learning"] 3 = Ok false
  ∧ PhraseTest.phrase_in_doc (PhraseTest.build_inverted_index PhraseTest.docs)
      ["learning"; "about"; "machine"] 3 = Ok true.
Proof. split; vm_compute; reflexivity. Qed.

Example getitem_samples :
  getitem [10; 20; 30] 0 = Ok 10
  ∧ getitem [10; 20; 30] (-1) = Ok 30
  ∧ getitem [10; 20; 30] 3 = Raise IndexError
  ∧ getitem [10; 20; 30] (-4) = Raise IndexError
  ∧ getitem ([] : list Z) 0 = Raise IndexError.
Proof. repeat split. Qed.

(** ** Built-ins *)

Lemma elem_of_range lo hi x : x ∈ range lo hi ↔ lo ≤ x < hi.
Proof.
  unfold range. rewrite list_elem_of_fmap. split.
  - intros (i & -> & Hi). apply elem_of_seq in Hi. lia.
  - intros Hx. exists (Z.to_nat (x - lo)). split; [lia|].
    apply elem_of_seq. lia.
Qed.

Lemma range_sorted lo hi : StronglySorted Z.lt (range lo hi).
Proof.
  unfold range. generalize (Z.to_nat (hi - lo)) as n.
  intros n. generalize 0%nat as s. induction n as [|n IH]; intros s; simpl.
  - constructor.
  - constructor; [apply IH|].
    apply Forall_forall. intros x Hx.
    apply list_elem_of_fmap in Hx as (i & -> & Hi).
    apply elem_of_seq in Hi. simpl. lia.
Qed.

Lemma getitem_lookup {A} (l : list A) (i : nat) x :
  l !! i = Some x → getitem l (Z.of_nat i) = Ok x.
Proof.
  intros Hx. unfold getitem. cbv zeta.
  rewrite (decide_False (P := Z.of_nat i < 0)) by lia.
  rewrite decide_False by lia.
  by rewrite Nat2Z.id, Hx.
Qed.

Lemma all_of_forallb {A} (f : A → result bool) (g : A → bool) l :
  (∀ x, x ∈ l → f x = Ok (g x)) → all_of f l = Ok (forallb g l).
Proof.
  induction l as [|x l IH]; intros Hf; simpl; [done|].
  rewrite (Hf x) by left. simpl.
  destruct (g x); simpl; [|done].
  apply IH. intros y Hy. apply Hf. by right.
Qed.

(** ** One step of the builders *)

Lemma append_position_lookup inverted_index token doc_id pos t :
  append_position inverted_index token doc_id pos !! t =
    if decide (token = t)
    then Some (<[doc_id :=
                   default [] (lookup_positions inverted_index token doc_id)
                   ++ [pos]]>
                 (default ∅ (inverted_index !! token)))
    else inverted_index !! t.
Proof.
  unfold append_position, lookup_positions.
  destruct (inverted_index !! token) as [postings|] eqn:Htok; simpl.
  - rewrite Htok; simpl. rewrite lookup_insert.
    case_decide; [|done]. f_equal.
    destruct (postings !! doc_id) as [positions|] eqn:Hdoc; simpl.
    + by rewrite Hdoc.
    + rewrite lookup_insert_eq; simpl. by rewrite insert_insert_eq.
  - rewrite lookup_insert_eq; simpl. rewrite lookup_empty; simpl.
    rewrite lookup_insert_eq; simpl. rewrite !insert_insert_eq.
    rewrite lookup_insert. by case_decide.
Qed.

Lemma append_position_positions inverted_index token doc_id pos t d :
  lookup_positions (append_position inverted_index token doc_id pos) t d =
    if decide (token = t ∧ doc_id = d)
    then Some (default [] (lookup_positions inverted_index t d) ++ [pos])
    else lookup_positions inverted_index t d.
Proof.
  unfold lookup_positions at 1. rewrite append_position_lookup.
  destruct (decide (token = t)) as [->|Hne]; simpl.
  - rewrite lookup_insert.
    destruct (decide (doc_id = d)) as [->|Hd].
    + rewrite decide_True; [done | by split].
    + rewrite decide_False by (intros [_ ?]; by apply Hd).
      unfold lookup_positions. by destruct (inverted_index !! t).
  - rewrite decide_False; [done|]. intros [? _]. by apply Hne.
Qed.

Lemma append_position_inhabited inverted_index token doc_id pos :
  keys_inhabited inverted_index →
  keys_inhabited (append_position inverted_index token doc_id pos).
Proof.
  intros Hinv t Ht.
  destruct (decide (token = t)) as [->|Hne].
  - exists doc_id. rewrite append_position_positions.
    rewrite decide_True; [done | by split].
  - rewrite append_position_lookup, decide_False in Ht by done.
    destruct (Hinv t Ht) as [d Hd]. exists d.
    rewrite append_position_positions.
    rewrite decide_False; [done|]. intros [? _]. by apply Hne.
Qed.

Lemma extend_app entry l1 l2 :
  extend (extend entry l1) l2 = extend entry (l1 ++ l2).
Proof.
  destruct l1 as [|x l1]; [done|]. destruct l2 as [|y l2]; simpl.
  - by rewrite app_nil_r.
  - by rewrite <- app_assoc.
Qed.

(** ** The inner loop *)

Lemma index_tokens_from_positions inverted_index doc_id start tokens t d :
  lookup_positions
    (foldl (λ inverted_index '(pos, token),
              append_position inverted_index token doc_id pos)
           inverted_index (enumerate_from start tokens)) t d =
    if decide (d = doc_id)
    then extend (lookup_positions inverted_index t d)
                (occurrences t start tokens)
    else lookup_positions inverted_index t d.
Proof.
  revert inverted_index start.
  induction tokens as [|token tokens IH]; intros inverted_index start; simpl.
  - by case_decide.
  - rewrite IH, append_position_positions.
    destruct (decide (d = doc_id)) as [->|Hd].
    + destruct (decide (token = t)) as [->|Ht].
      * rewrite !decide_True by done.
        change (start :: occurrences t (start + 1) tokens)
          with ([start] ++ occurrences t (start + 1) tokens).
        by rewrite <- extend_app.
      * rewrite !decide_False; [done..|]. by intros [? _].
    + rewrite decide_False; [done|]. intros [_ ?]. by apply Hd.
Qed.

Lemma index_tokens_positions inverted_index doc_id tokens t d :
  lookup_positions (PhraseTest.index_tokens inverted_index doc_id tokens) t d =
    if decide (d = doc_id)
    then extend (lookup_positions inverted_index t d) (occurrences t 0 tokens)
    else lookup_positions inverted_index t d.
Proof. apply index_tokens_from_positions. Qed.

Lemma index_tokens_inhabited inverted_index doc_id tokens :
  keys_inhabited inverted_index →
  keys_inhabited (PhraseTest.index_tokens inverted_index doc_id tokens).
Proof.
  unfold PhraseTest.index_tokens, enumerate. generalize 0 as start.
  revert inverted_index.
  induction tokens as [|token tokens IH]; intros inverted_index start Hinv;
    simpl; [done|].
  by apply IH, append_position_inhabited.
Qed.

(** The [seen_in_doc] set of the Step 4 loop never reaches the index. *)
Lemma step4_index_tokens_fst inverted_index doc_id tokens :
  fst (Step4.index_tokens inverted_index doc_id tokens) =
    PhraseTest.index_tokens inverted_index doc_id tokens.
Proof.
  unfold Step4.index_tokens, PhraseTest.index_tokens, enumerate.
  generalize 0 as start. generalize (∅ : gset string) as seen_in_doc.
  revert inverted_index.
  induction tokens as [|token tokens IH];
    intros inverted_index seen_in_doc start; simpl; [done|].
  apply IH.
Qed.

(** ** The outer loop *)

Lemma step4_build_from stop_words stem docs :
  Step4.build_inverted_index stop_words stem docs =
    build_from (Step4.normalize_tokens stop_words stem) ∅ 0 docs.
Proof.
  unfold Step4.build_inverted_index, build_from, enumerate.
  generalize 0 as start. generalize (∅ : index) as inverted_index.
  induction docs as [|text docs IH]; intros inverted_index start; simpl;
    [done|].
  by rewrite IH, step4_index_tokens_fst.
Qed.

Lemma test_build_from docs :
  PhraseTest.build_inverted_index docs =
    build_from PhraseTest.basic_tokenizer ∅ 0 docs.
Proof. reflexivity. Qed.

Lemma build_from_ext normalize1 normalize2 inverted_index start docs :
  (∀ text, text ∈ docs → normalize1 text = normalize2 text) →
  build_from normalize1 inverted_index start docs =
    build_from normalize2 inverted_index start docs.
Proof.
  unfold build_from. revert inverted_index start.
  induction docs as [|text docs IH]; intros inverted_index start Hsame; simpl;
    [done|].
  rewrite (Hsame text) by left.
  apply IH. intros text' Hin. apply Hsame. by right.
Qed.

Lemma doc_tokens_cons normalize text docs d :
  d ≠ 0 →
  doc_tokens normalize (text :: docs) d = doc_tokens normalize docs (d - 1).
Proof.
  intros Hd. unfold doc_tokens.
  destruct (decide (0 ≤ d)) as [Hpos|Hneg].
  - rewrite decide_True by lia.
    replace (Z.to_nat d) with (S (Z.to_nat (d - 1))) by lia. done.
  - by rewrite decide_False by lia.
Qed.

Lemma build_from_positions normalize inverted_index start docs t d :
  lookup_positions (build_from normalize inverted_index start docs) t d =
    extend (lookup_positions inverted_index t d)
           (occurrences t 0 (doc_tokens normalize docs (d - start))).
Proof.
  unfold build_from. revert inverted_index start.
  induction docs as [|text docs IH]; intros inverted_index start; simpl.
  - unfold doc_tokens. by case_decide.
  - rewrite IH, index_tokens_positions.
    destruct (decide (d = start)) as [->|Hd].
    + replace (start - (start + 1)) with (-1) by lia.
      replace (start - start) with 0 by lia. done.
    + rewrite doc_tokens_cons by lia.
      by replace (d - (start + 1)) with (d - start - 1) by lia.
Qed.

Lemma build_from_inhabited normalize inverted_index start docs :
  keys_inhabited inverted_index →
  keys_inhabited (build_from normalize inverted_index start docs).
Proof.
  unfold build_from. revert inverted_index start.
  induction docs as [|text docs IH]; intros inverted_index start Hinv; simpl;
    [done|].
  by apply IH, index_tokens_inhabited.
Qed.

Lemma keys_inhabited_empty : keys_inhabited ∅.
Proof. intros token [postings Hp]. by rewrite lookup_empty in Hp. Qed.

(** ** Occurrence lists *)

Lemma elem_of_occurrences t start tokens p :
  p ∈ occurrences t start tokens ↔
    ∃ i : nat, p = start + Z.of_nat i ∧ tokens !! i = Some t.
Proof.
  revert start. induction tokens as [|x tokens IH]; intros start; simpl.
  - split; [by intros ?%elem_of_nil | by intros (i & _ & ?)].
  - destruct (decide (x = t)) as [->|Hx].
    + rewrite elem_of_cons, IH. split.
      * intros [->|(i & -> & Hi)]; [exists 0%nat | exists (S i)];
          (split; [lia | done]).
      * intros ([|i] & -> & Hi); [left; lia | right].
        exists i. split; [lia | done].
    + rewrite IH. split.
      * intros (i & -> & Hi). exists (S i). split; [lia | done].
      * intros ([|i] & -> & Hi); [simpl in Hi; congruence|].
        exists i. split; [lia | done].
Qed.

Lemma occurrences_sorted t start tokens :
  StronglySorted Z.lt (occurrences t start tokens).
Proof.
  revert start. induction tokens as [|x tokens IH]; intros start; simpl.
  - constructor.
  - destruct (decide (x = t)); [|apply IH].
    constructor; [apply IH|].
    apply Forall_forall. intros p (i & -> & _)%elem_of_occurrences. lia.
Qed.

Lemma occurrences_length t start tokens :
  length (occurrences t start tokens) = length (filter (λ x, x = t) tokens).
Proof.
  revert start. induction tokens as [|x tokens IH]; intros start; simpl;
    [done|].
  rewrite filter_cons. destruct (decide (x = t)); simpl; by rewrite IH.
Qed.

Lemma occurrences_nil t start tokens :
  occurrences t start tokens = [] ↔ t ∉ tokens.
Proof.
  split.
  - intros Hnil (i & Hi)%list_elem_of_lookup.
    assert (start + Z.of_nat i ∈ occurrences t start tokens) as Hin
      by (apply elem_of_occurrences; eauto).
    rewrite Hnil in Hin. by apply elem_of_nil in Hin.
  - intros Hnot. destruct (occurrences t start tokens) as [|p l] eqn:Hocc;
      [done|].
    assert (p ∈ occurrences t start tokens) as Hin by (rewrite Hocc; left).
    apply elem_of_occurrences in Hin as (i & _ & Hi).
    destruct Hnot. apply list_elem_of_lookup. eauto.
Qed.

Lemma strongly_sorted_lt_nodup (l : list Z) : StronglySorted Z.lt l → NoDup l.
Proof.
  induction 1 as [|x l _ IH Hall]; constructor; [|done].
  intros Hin. rewrite Forall_forall in Hall. specialize (Hall x Hin). lia.
Qed.

(** ** What a built index stores *)

Lemma built_positions normalize docs t d :
  lookup_positions (build_from normalize ∅ 0 docs) t d =
    match occurrences t 0 (doc_tokens normalize docs d) with
    | [] => None
    | positions => Some positions
    end.
Proof.
  rewrite build_from_positions. replace (d - 0) with d by lia.
  unfold lookup_positions. rewrite lookup_empty. simpl.
  by destruct (occurrences _ _ _).
Qed.

Lemma built_positions_some normalize docs t d positions :
  lookup_positions (build_from normalize ∅ 0 docs) t d = Some positions ↔
    positions = occurrences t 0 (doc_tokens normalize docs d) ∧
    t ∈ doc_tokens normalize docs d.
Proof.
  rewrite built_positions.
  pose proof (occurrences_nil t 0 (doc_tokens normalize docs d)) as Hnil.
  destruct (occurrences _ _ _) as [|p l]; split.
  - done.
  - intros [_ Hin]. by destruct (proj1 Hnil eq_refl).
  - intros [= <-]. split; [done|].
    destruct (decide (t ∈ doc_tokens normalize docs d)) as [|Hnot]; [done|].
    by apply Hnil in Hnot.
  - by intros [-> _].
Qed.

Lemma elem_of_doc_tokens normalize docs t d :
  t ∈ doc_tokens normalize docs d ↔
    0 ≤ d < len docs ∧
    ∃ text, docs !! Z.to_nat d = Some text ∧ t ∈ normalize text.
Proof.
  unfold doc_tokens, len. destruct (decide (0 ≤ d)) as [Hd|Hd].
  - destruct (docs !! Z.to_nat d) as [text|] eqn:Hdoc; simpl.
    + apply lookup_lt_Some in Hdoc as Hlt. split.
      * intros Hin. split; [lia | eauto].
      * by intros (_ & text' & [= <-] & Hin).
    + split; [by intros ?%elem_of_nil | by intros (_ & text & ? & _)].
  - split; [by intros ?%elem_of_nil | intros [? _]; lia].
Qed.

Lemma built_key normalize docs t :
  is_Some (build_from normalize ∅ 0 docs !! t) ↔
    ∃ d, t ∈ doc_tokens normalize docs d.
Proof.
  split.
  - intros Hkey.
    destruct (build_from_inhabited normalize ∅ 0 docs keys_inhabited_empty
                t Hkey) as (d & positions & Hd).
    exists d. by apply built_positions_some in Hd as [_ ?].
  - intros (d & Hin).
    assert (lookup_positions (build_from normalize ∅ 0 docs) t d =
              Some (occurrences t 0 (doc_tokens normalize docs d))) as Hpos
      by by apply built_positions_some.
    unfold lookup_positions in Hpos.
    by destruct (build_from normalize ∅ 0 docs !! t).
Qed.

(** ** [phrase_in_doc] *)

Lemma gather_positions_mapM inverted_index doc_id phrase_tokens acc :
  gather_positions inverted_index doc_id phrase_tokens acc =
    (λ lists, acc ++ lists) <$>
      mapM (λ t, lookup_positions inverted_index t doc_id) phrase_tokens.
Proof.
  revert acc. induction phrase_tokens as [|token phrase_tokens IH];
    intros acc.
  - simpl. by rewrite app_nil_r.
  - cbn [gather_positions mapM]. unfold lookup_positions.
    destruct (inverted_index !! token) as [postings|]; simpl; [|done].
    destruct (postings !! doc_id) as [positions|]; simpl; [|done].
    rewrite IH. unfold lookup_positions.
    destruct (mapM _ phrase_tokens) as [lists|]; simpl; [|done].
    by rewrite <- app_assoc.
Qed.

Lemma follows_in_range positions_lists start_pos offset :
  offset ∈ range 1 (len positions_lists) →
  follows positions_lists start_pos offset =
    Ok (bool_decide
          (start_pos + offset
             ∈ default [] (positions_lists !! Z.to_nat offset))).
Proof.
  intros Hin%elem_of_range. unfold len in Hin. unfold follows.
  destruct (lookup_lt_is_Some_2 positions_lists (Z.to_nat offset))
    as [positions Hp]; [lia|].
  replace offset with (Z.of_nat (Z.to_nat offset)) at 1 by lia.
  rewrite (getitem_lookup _ _ _ Hp). by rewrite Hp.
Qed.

Lemma scan_anchors_existsb positions_lists first_positions :
  scan_anchors positions_lists first_positions =
    Ok (existsb (anchor_ok positions_lists) first_positions).
Proof.
  induction first_positions as [|start_pos first_positions IH]; simpl;
    [done|].
  rewrite (all_of_forallb _ _ _
             (λ x, follows_in_range positions_lists start_pos x)).
  simpl. fold (anchor_ok positions_lists start_pos).
  by destruct (anchor_ok positions_lists start_pos).
Qed.

Lemma phrase_in_doc_unfold inverted_index phrase_tokens doc_id :
  phrase_in_doc inverted_index phrase_tokens doc_id =
    match mapM (λ t, lookup_positions inverted_index t doc_id) phrase_tokens
    with
    | None => Ok false
    | Some [] => Raise IndexError
    | Some (first_positions :: others) =>
        Ok (existsb (anchor_ok (first_positions :: others)) first_positions)
    end.
Proof.
  unfold phrase_in_doc. rewrite gather_positions_mapM.
  destruct (mapM _ phrase_tokens) as [[|first_positions others]|]; simpl;
    [done| |done].
  apply scan_anchors_existsb.
Qed.

Lemma anchor_ok_true positions_lists start_pos :
  anchor_ok positions_lists start_pos = true ↔
    ∀ (k : nat) positions,
      (1 ≤ k)%nat → positions_lists !! k = Some positions →
      start_pos + Z.of_nat k ∈ positions.
Proof.
  unfold anchor_ok. rewrite forallb_forall. split.
  - intros Hall k positions Hk Hp.
    apply lookup_lt_Some in Hp as Hlt.
    assert (Z.of_nat k ∈ range 1 (len positions_lists)) as Hin
      by (apply elem_of_range; unfold len; lia).
    apply list_elem_of_In, Hall in Hin.
    rewrite Nat2Z.id, Hp in Hin. simpl in Hin.
    by apply bool_decide_eq_true in Hin.
  - intros Hall offset Hin%list_elem_of_In%elem_of_range. unfold len in Hin.
    destruct (lookup_lt_is_Some_2 positions_lists (Z.to_nat offset))
      as [positions Hp]; [lia|].
    rewrite Hp. simpl. apply bool_decide_eq_true_2.
    replace offset with (Z.of_nat (Z.to_nat offset)) at 1 by lia.
    apply Hall; [lia | done].
Qed.

(** A non-empty phrase never makes [phrase_in_doc] raise. *)
Lemma phrase_in_doc_total inverted_index token phrase_tokens doc_id :
  ∃ b, phrase_in_doc inverted_index (token :: phrase_tokens) doc_id = Ok b.
Proof.
  rewrite phrase_in_doc_unfold.
  destruct (mapM _ (token :: phrase_tokens)) as [[|first others]|] eqn:Hm;
    eauto.
  apply mapM_Some in Hm. inversion Hm.
Qed.

Lemma phrase_in_doc_missing inverted_index phrase_tokens doc_id t :
  t ∈ phrase_tokens →
  lookup_positions inverted_index t doc_id = None →
  phrase_in_doc inverted_index phrase_tokens doc_id = Ok false.
Proof.
  intros Hin Hnone. rewrite phrase_in_doc_unfold.
  destruct (mapM _ phrase_tokens) as [lists|] eqn:Hm; [|done].
  apply mapM_Some in Hm.
  apply list_elem_of_lookup in Hin as [i Hi].
  destruct (Forall2_lookup_l _ _ _ _ _ Hm Hi) as (positions & _ & Hp).
  congruence.
Qed.

Lemma phrase_in_doc_empty inverted_index doc_id :
  phrase_in_doc inverted_index [] doc_id = Raise IndexError.
Proof. reflexivity. Qed.

(** ** [phrase_search] *)

Lemma strongly_sorted_filter (P : Z → Prop) `{∀ x, Decision (P x)} l :
  StronglySorted Z.lt l → StronglySorted Z.lt (filter P l).
Proof.
  induction 1 as [|x l _ IH Hall]; [constructor|].
  rewrite filter_cons. destruct (decide (P x)); [|done].
  constructor; [done|].
  rewrite Forall_forall in Hall. apply Forall_forall.
  intros y [_ Hy]%list_elem_of_filter. by apply Hall.
Qed.

Lemma filter_none (P : Z → Prop) `{∀ x, Decision (P x)} l :
  (∀ x, x ∈ l → ¬ P x) → filter P l = [].
Proof.
  intros Hnone. destruct (filter P l) as [|x l'] eqn:Hf; [done|].
  assert (x ∈ filter P l) as [Hx Hin]%list_elem_of_filter
    by (rewrite Hf; left).
  by destruct (Hnone x Hin).
Qed.

Lemma search_docs_ok inverted_index phrase_tokens doc_ids matched_docs :
  (∀ d, d ∈ doc_ids →
     ∃ b, phrase_in_doc inverted_index phrase_tokens d = Ok b) →
  search_docs inverted_index phrase_tokens doc_ids matched_docs =
    Ok (matched_docs ++
        filter (λ d, phrase_in_doc inverted_index phrase_tokens d = Ok true)
               doc_ids).
Proof.
  revert matched_docs.
  induction doc_ids as [|d doc_ids IH]; intros matched_docs Hok.
  - simpl. by rewrite app_nil_r.
  - destruct (Hok d) as [b Hb]; [left|].
    rewrite filter_cons. cbn [search_docs]. rewrite Hb.
    cbn [mbind result_mbind result_bind].
    rewrite IH by (intros d' ?; apply Hok; by right).
    destruct b.
    + rewrite decide_True by done. by rewrite <- app_assoc.
    + by rewrite decide_False by done.
Qed.

Lemma search_docs_inv inverted_index phrase_tokens doc_ids matched_docs l :
  search_docs inverted_index phrase_tokens doc_ids matched_docs = Ok l →
  l = matched_docs ++
      filter (λ d, phrase_in_doc inverted_index phrase_tokens d = Ok true)
             doc_ids.
Proof.
  revert matched_docs.
  induction doc_ids as [|d doc_ids IH]; intros matched_docs.
  - simpl. intros [= <-]. by rewrite app_nil_r.
  - rewrite filter_cons. cbn [search_docs].
    destruct (phrase_in_doc inverted_index phrase_tokens d) as [[]|e];
      cbn [mbind result_mbind result_bind]; [| |done]; intros ->%IH.
    + rewrite decide_True by done. by rewrite <- app_assoc.
    + by rewrite decide_False by done.
Qed.

Lemma search_docs_empty_phrase inverted_index d doc_ids matched_docs :
  search_docs inverted_index [] (d :: doc_ids) matched_docs = Raise IndexError.
Proof. reflexivity. Qed.

Lemma range_0_cons n : 0 < n → range 0 n = 0 :: range 1 n.
Proof.
  intros Hn. unfold range.
  replace (Z.to_nat (n - 0)) with (S (Z.to_nat (n - 1))) by lia.
  simpl. f_equal. rewrite <- fmap_S_seq, <- list_fmap_compose.
  apply list_fmap_ext. intros _ i _. simpl. lia.
Qed.

(** * The claims *)

(** C1.  A phrase whose normalized term sequence is empty does not yield
    [False] / the empty sequence: [phrase_in_doc] raises [IndexError] at
    [positions_lists[0]] for every index and every document id, and
    [phrase_search] raises it as soon as the collection has a document. *)
Theorem empty_phrase_raises
    stop_words stem (inverted_index : index) phrase docs doc_id :
  Step4.normalize_tokens stop_words stem phrase = [] →
  docs ≠ [] →
  Step4.phrase_in_doc inverted_index
    (Step4.normalize_tokens stop_words stem phrase) doc_id = Raise IndexError
  ∧ Step4.phrase_search stop_words stem inverted_index phrase docs
    = Raise IndexError.
Proof.
  intros Hempty Hdocs. split.
  - rewrite Hempty. apply phrase_in_doc_empty.
  - unfold Step4.phrase_search. rewrite Hempty.
    rewrite range_0_cons by (destruct docs; [done | unfold len; simpl; lia]).
    apply search_docs_empty_phrase.
Qed.

Lemma empty_phrase_raises_witness :
  Step4.normalize_tokens sample_stop_words id "the of" = [] ∧
  ["the cat sat"] ≠ [] ∧
  Step4.phrase_in_doc
    (Step4.build_inverted_index sample_stop_words id ["the cat sat"])
    (Step4.normalize_tokens sample_stop_words id "the of") 0
    = Raise IndexError ∧
  Step4.phrase_search sample_stop_words id
    (Step4.build_inverted_index sample_stop_words id ["the cat sat"])
    "the of" ["the cat sat"]
    = Raise IndexError.
Proof.
  split; [vm_compute; reflexivity|]. split; [discriminate|].
  apply (empty_phrase_raises sample_stop_words id
           (Step4.build_inverted_index sample_stop_words id ["the cat sat"])
           "the of" ["the cat sat"] 0);
    [vm_compute; reflexivity | discriminate].
Defined.

(** C2.  The index built by [build_inverted_index] has a term as a key
    exactly when the term occurs in the normalized stream of some document;
    it has a document id under a term exactly when the term occurs in that
    document's normalized stream; and the stored position list is the list
    of the zero-based offsets of the term in that stream: the same set, one
    entry per occurrence. *)
Theorem build_inverted_index_exact stop_words stem docs :
  (∀ t, is_Some (Step4.build_inverted_index stop_words stem docs !! t) ↔
          ∃ (d : nat) text,
            docs !! d = Some text ∧
            t ∈ Step4.normalize_tokens stop_words stem text)
  ∧ (∀ t d,
       is_Some (lookup_positions
                  (Step4.build_inverted_index stop_words stem docs) t d) ↔
         0 ≤ d ∧
         ∃ text, docs !! Z.to_nat d = Some text ∧
                 t ∈ Step4.normalize_tokens stop_words stem text)
  ∧ (∀ t d positions,
       lookup_positions (Step4.build_inverted_index stop_words stem docs) t d
         = Some positions →
       ∃ text,
         0 ≤ d ∧ docs !! Z.to_nat d = Some text ∧
         positions
           = occurrences t 0 (Step4.normalize_tokens stop_words stem text) ∧
         (∀ p, p ∈ positions ↔
                 0 ≤ p ∧
                 Step4.normalize_tokens stop_words stem text !! Z.to_nat p
                   = Some t) ∧
         NoDup positions ∧
         length positions
           = length (filter (λ x, x = t)
                       (Step4.normalize_tokens stop_words stem text))).
Proof.
  rewrite step4_build_from.
  set (normalize := Step4.normalize_tokens stop_words stem).
  assert (∀ t d, is_Some (lookup_positions (build_from normalize ∅ 0 docs) t d)
                 ↔ 0 ≤ d ∧ ∃ text, docs !! Z.to_nat d = Some text
                                   ∧ t ∈ normalize text) as Hdoc.
  { intros t d. split.
    - intros [positions [_ Hin]%built_positions_some].
      apply elem_of_doc_tokens in Hin as [[? _] ?]. done.
    - intros (Hd & text & Htext & Hin). eexists.
      apply built_positions_some. split; [done|].
      apply elem_of_doc_tokens. apply lookup_lt_Some in Htext as Hlt.
      split; [unfold len; lia | eauto]. }
  split; [|split; [done|]].
  - intros t. rewrite built_key. split.
    + intros (d & (_ & text & Htext & Hin)%elem_of_doc_tokens). eauto.
    + intros (d & text & Htext & Hin). exists (Z.of_nat d).
      apply elem_of_doc_tokens. apply lookup_lt_Some in Htext as Hlt.
      rewrite Nat2Z.id. split; [unfold len; lia | eauto].
  - intros t d positions [-> Hin]%built_positions_some.
    apply elem_of_doc_tokens in Hin as ([Hd _] & text & Htext & Hin).
    exists text. unfold doc_tokens. rewrite decide_True, Htext by done. simpl.
    split; [done|]. split; [done|]. split; [done|]. split; [|split].
    + intros p. rewrite elem_of_occurrences. split.
      * intros (i & -> & Hi). rewrite Z.add_0_l, Nat2Z.id. split; [lia|done].
      * intros [Hp Hl]. exists (Z.to_nat p). split; [lia | done].
    + apply strongly_sorted_lt_nodup, occurrences_sorted.
    + apply occurrences_length.
Qed.

Lemma build_inverted_index_exact_witness :
  lookup_positions
    (Step4.build_inverted_index sample_stop_words id
       ["the cat of the cat"; "dog"]) "cat" 0 = Some [0; 1]
  ∧ NoDup [0; 1].
Proof.
  assert (lookup_positions
            (Step4.build_inverted_index sample_stop_words id
               ["the cat of the cat"; "dog"]) "cat" 0 = Some [0; 1]) as Hpos
    by (vm_compute; reflexivity).
  split; [exact Hpos|].
  destruct (proj2 (proj2 (build_inverted_index_exact sample_stop_words id
                            ["the cat of the cat"; "dog"]))
              "cat" 0 [0; 1] Hpos)
    as (text & _ & _ & _ & _ & Hnodup & _).
  exact Hnodup.
Defined.

(** C3.  When every term of a non-empty phrase has a position list for the
    document, [phrase_in_doc] returns a boolean, and it returns [True]
    exactly when some anchor [s] of the first term's position list is such
    that, for every later phrase term at offset [k >= 1], the position list
    of that term contains [s + k]. *)
Theorem phrase_in_doc_anchor
    (inverted_index : index) first_token later_tokens doc_id :
  (∀ t, t ∈ first_token :: later_tokens →
        is_Some (lookup_positions inverted_index t doc_id)) →
  (∃ b, Step4.phrase_in_doc inverted_index
          (first_token :: later_tokens) doc_id = Ok b)
  ∧ (Step4.phrase_in_doc inverted_index
       (first_token :: later_tokens) doc_id = Ok true ↔
     ∃ s first_positions,
       lookup_positions inverted_index first_token doc_id
         = Some first_positions ∧
       s ∈ first_positions ∧
       ∀ (k : nat) t positions,
         (1 ≤ k)%nat →
         (first_token :: later_tokens) !! k = Some t →
         lookup_positions inverted_index t doc_id = Some positions →
         s + Z.of_nat k ∈ positions).
Proof.
  intros Hall. split; [apply phrase_in_doc_total|].
  unfold Step4.phrase_in_doc. rewrite phrase_in_doc_unfold.
  destruct (mapM _ (first_token :: later_tokens)) as [lists|] eqn:Hm.
  - apply mapM_Some in Hm.
    destruct lists as [|first_positions others]; [inversion Hm|].
    assert (lookup_positions inverted_index first_token doc_id
              = Some first_positions) as Hfirst
      by (by inversion Hm).
    split.
    + intros [= Hex]. apply existsb_exists in Hex as (s & Hs & Hok).
      exists s, first_positions.
      split; [done|]. split; [by apply list_elem_of_In|].
      intros k t positions Hk Ht Hp.
      destruct (Forall2_lookup_l _ _ _ _ _ Hm Ht) as (positions' & Hl & Hp').
      assert (positions' = positions) as -> by congruence.
      by apply (proj1 (anchor_ok_true _ _) Hok k).
    + intros (s & first' & Hfirst' & Hs & Hfollow).
      assert (first' = first_positions) as -> by congruence.
      f_equal. apply existsb_exists. exists s.
      split; [by apply list_elem_of_In|].
      apply anchor_ok_true. intros k positions Hk Hl.
      destruct (Forall2_lookup_r _ _ _ _ _ Hm Hl) as (t & Ht & Hp).
      by apply (Hfollow k t).
  - apply mapM_None_1, Exists_exists in Hm as (t & Hin & Hnone).
    destruct (Hall t Hin) as [positions Hp]. congruence.
Qed.

Lemma phrase_in_doc_anchor_witness :
  (∀ t, t ∈ ["machine"; "learning"] →
        is_Some (lookup_positions
                   (PhraseTest.build_inverted_index PhraseTest.docs) t 1))
  ∧ Step4.phrase_in_doc (PhraseTest.build_inverted_index PhraseTest.docs)
      ["machine"; "learning"] 1 = Ok true.
Proof.
  assert (∀ t, t ∈ ["machine"; "learning"] →
               is_Some (lookup_positions
                          (PhraseTest.build_inverted_index PhraseTest.docs)
                          t 1)) as Hall.
  { intros t Ht.
    apply elem_of_cons in Ht as [->|Ht];
      [eexists; vm_compute; reflexivity|].
    apply elem_of_cons in Ht as [->|Ht];
      [eexists; vm_compute; reflexivity|].
    inversion Ht. }
  split; [exact Hall|].
  apply (phrase_in_doc_anchor
           (PhraseTest.build_inverted_index PhraseTest.docs)
           "machine" ["learning"] 1 Hall).
  exists 6, [6]. split; [vm_compute; reflexivity|]. split; [left|].
  intros [|[|k]] t positions Hk Ht;
    [lia | | exfalso; clear -Ht; by destruct k].
  injection Ht as <-. vm_compute. intros [= <-]. right. left.
Defined.

(** C4.  On the four sample documents of the test cell, [phrase_search]
    over the index built from them returns exactly [[0, 1, 2]] for
    "machine learning" and exactly [[1]] for "deep learning". *)
Theorem sample_phrase_queries :
  PhraseTest.phrase_search (PhraseTest.build_inverted_index PhraseTest.docs)
    "machine learning" PhraseTest.docs = Ok [0; 1; 2]
  ∧ PhraseTest.phrase_search (PhraseTest.build_inverted_index PhraseTest.docs)
      "deep learning" PhraseTest.docs = Ok [1].
Proof. split; vm_compute; reflexivity. Qed.

(** C5.  For a collection of [n] documents, the ascending enumeration of
    the document ids of [[0, n)] on which [phrase_in_doc] returns [True]
    is strictly ascending, duplicate-free and within [[0, n)]; whatever
    sequence [phrase_search] returns is that enumeration, and it does
    return it whenever the normalized phrase is non-empty. *)
Theorem phrase_search_ascending
    stop_words stem (inverted_index : index) phrase docs :
  StronglySorted Z.lt
    (matching_ids inverted_index
       (Step4.normalize_tokens stop_words stem phrase) (len docs))
  ∧ NoDup
      (matching_ids inverted_index
         (Step4.normalize_tokens stop_words stem phrase) (len docs))
  ∧ (∀ d, d ∈ matching_ids inverted_index
                (Step4.normalize_tokens stop_words stem phrase) (len docs) ↔
          0 ≤ d < len docs ∧
          Step4.phrase_in_doc inverted_index
            (Step4.normalize_tokens stop_words stem phrase) d = Ok true)
  ∧ (∀ matched_docs,
       Step4.phrase_search stop_words stem inverted_index phrase docs
         = Ok matched_docs →
       matched_docs
         = matching_ids inverted_index
             (Step4.normalize_tokens stop_words stem phrase) (len docs))
  ∧ (Step4.normalize_tokens stop_words stem phrase ≠ [] →
     Step4.phrase_search stop_words stem inverted_index phrase docs
       = Ok (matching_ids inverted_index
               (Step4.normalize_tokens stop_words stem phrase) (len docs))).
Proof.
  unfold Step4.phrase_search, Step4.phrase_in_doc, matching_ids.
  set (phrase_tokens := Step4.normalize_tokens stop_words stem phrase).
  assert (StronglySorted Z.lt
            (filter (λ d, phrase_in_doc inverted_index phrase_tokens d
                          = Ok true)
                    (range 0 (len docs)))) as Hsorted
    by apply strongly_sorted_filter, range_sorted.
  split; [done|]. split; [by apply strongly_sorted_lt_nodup|].
  split; [|split].
  - intros d. rewrite list_elem_of_filter, elem_of_range. tauto.
  - intros matched_docs Hret. by apply search_docs_inv in Hret.
  - intros Hne. rewrite search_docs_ok; [done|].
    intros d _. destruct phrase_tokens; [done|]. apply phrase_in_doc_total.
Qed.

Lemma phrase_search_ascending_witness :
  Step4.normalize_tokens sample_stop_words id "the cat" ≠ []
  ∧ Step4.phrase_search sample_stop_words id
      (Step4.build_inverted_index sample_stop_words id
         ["the cat of the cat"; "dog"])
      "the cat" ["the cat of the cat"; "dog"]
    = Ok [0].
Proof.
  assert (Step4.normalize_tokens sample_stop_words id "the cat" ≠ [])
    as Hne by (vm_compute; discriminate).
  split; [exact Hne|].
  exact (proj2 (proj2 (proj2 (proj2
           (phrase_search_ascending sample_stop_words id
              (Step4.build_inverted_index sample_stop_words id
                 ["the cat of the cat"; "dog"])
              "the cat" ["the cat of the cat"; "dog"])))) Hne
         <: Step4.phrase_search sample_stop_words id
              (Step4.build_inverted_index sample_stop_words id
                 ["the cat of the cat"; "dog"])
              "the cat" ["the cat of the cat"; "dog"]
            = Ok [0]).
Defined.

(** C6.  For a single-term phrase [[t]], [phrase_in_doc] returns a boolean,
    and it returns [True] exactly when the index holds a non-empty position
    list for [t] and the document. *)
Theorem single_term_degeneracy (inverted_index : index) t doc_id :
  (∃ b, Step4.phrase_in_doc inverted_index [t] doc_id = Ok b)
  ∧ (Step4.phrase_in_doc inverted_index [t] doc_id = Ok true ↔
     ∃ positions,
       lookup_positions inverted_index t doc_id = Some positions ∧
       positions ≠ []).
Proof.
  split; [apply phrase_in_doc_total|].
  unfold Step4.phrase_in_doc. rewrite phrase_in_doc_unfold.
  cbn [mapM]. destruct (lookup_positions inverted_index t doc_id)
    as [[|p positions]|]; simpl.
  - split; [done|]. by intros (? & [= <-] & ?).
  - split; [|done]. intros _. by exists (p :: positions).
  - split; [done|]. by intros (? & ? & _).
Qed.

(** C7.  If some term of the phrase is absent from the index, or has no
    entry for the document, [phrase_in_doc] returns [False]; and a phrase
    with a term that is not a key of the index makes [phrase_search] return
    the empty list. *)
Theorem missing_term_short_circuits
    stop_words stem (inverted_index : index) :
  (∀ phrase_tokens doc_id t,
     t ∈ phrase_tokens →
     (inverted_index !! t = None
      ∨ ∃ postings : gmap Z (list Z),
          inverted_index !! t = Some postings ∧ postings !! doc_id = None) →
     Step4.phrase_in_doc inverted_index phrase_tokens doc_id = Ok false)
  ∧ (∀ phrase docs t,
       t ∈ Step4.normalize_tokens stop_words stem phrase →
       inverted_index !! t = None →
       Step4.phrase_search stop_words stem inverted_index phrase docs
         = Ok []).
Proof.
  assert (∀ phrase_tokens doc_id t,
            t ∈ phrase_tokens → inverted_index !! t = None →
            phrase_in_doc inverted_index phrase_tokens doc_id = Ok false)
    as Hkey.
  { intros phrase_tokens doc_id t Hin Hnone.
    apply (phrase_in_doc_missing _ _ _ t Hin).
    unfold lookup_positions. by rewrite Hnone. }
  split.
  - intros phrase_tokens doc_id t Hin [Hnone|(postings & Hsome & Hnone)];
      [by apply (Hkey _ _ t)|].
    apply (phrase_in_doc_missing _ _ _ t Hin).
    unfold lookup_positions. by rewrite Hsome.
  - intros phrase docs t Hin Hnone. unfold Step4.phrase_search.
    rewrite search_docs_ok by (intros d _; rewrite (Hkey _ d t); eauto).
    simpl. f_equal. apply filter_none. intros d _.
    by rewrite (Hkey _ d t).
Qed.

Lemma missing_term_short_circuits_witness :
  "zebra" ∈ ["cat"; "zebra"]
  ∧ Step4.build_inverted_index sample_stop_words id
      ["the cat of the cat"; "dog"] !! "zebra" = None
  ∧ Step4.phrase_in_doc
      (Step4.build_inverted_index sample_stop_words id
         ["the cat of the cat"; "dog"]) ["cat"; "zebra"] 0 = Ok false.
Proof.
  assert ("zebra" ∈ ["cat"; "zebra"]) as Hin by (right; left).
  assert (Step4.build_inverted_index sample_stop_words id
            ["the cat of the cat"; "dog"] !! "zebra" = None) as Hnone
    by (vm_compute; reflexivity).
  split; [exact Hin|]. split; [exact Hnone|].
  exact (proj1 (missing_term_short_circuits sample_stop_words id
                  (Step4.build_inverted_index sample_stop_words id
                     ["the cat of the cat"; "dog"]))
           ["cat"; "zebra"] 0 "zebra" Hin (or_introl Hnone)).
Defined.

(** C8.  Every position list stored in the index built by
    [build_inverted_index] is strictly increasing: it lists the zero-based
    offsets of the term in the document's normalized stream in scan order,
    one entry per occurrence. *)
Theorem built_positions_increasing stop_words stem docs t doc_id positions :
  lookup_positions (Step4.build_inverted_index stop_words stem docs) t doc_id
    = Some positions →
  StronglySorted Z.lt positions
  ∧ positions
    = occurrences t 0
        (doc_tokens (Step4.normalize_tokens stop_words stem) docs doc_id).
Proof.
  rewrite step4_build_from. intros [-> _]%built_positions_some.
  split; [apply occurrences_sorted | done].
Qed.

Lemma built_positions_increasing_witness :
  lookup_positions
    (Step4.build_inverted_index sample_stop_words id
       ["the cat of the cat"; "dog"]) "cat" 0 = Some [0; 1]
  ∧ StronglySorted Z.lt [0; 1].
Proof.
  assert (lookup_positions
            (Step4.build_inverted_index sample_stop_words id
               ["the cat of the cat"; "dog"]) "cat" 0 = Some [0; 1]) as Hpos
    by (vm_compute; reflexivity).
  split; [exact Hpos|].
  exact (proj1 (built_positions_increasing sample_stop_words id
                  ["the cat of the cat"; "dog"] "cat" 0 [0; 1] Hpos)).
Defined.

(** C9.  On the index built from [n] documents, [phrase_in_doc] with a
    non-empty phrase and a document id outside [[0, n)], negative ids
    included, returns [False]. *)
Theorem phrase_in_doc_out_of_range stop_words stem docs phrase_tokens doc_id :
  phrase_tokens ≠ [] →
  ¬ (0 ≤ doc_id < len docs) →
  Step4.phrase_in_doc (Step4.build_inverted_index stop_words stem docs)
    phrase_tokens doc_id = Ok false.
Proof.
  intros Hne Hout. destruct phrase_tokens as [|t phrase_tokens]; [done|].
  apply (phrase_in_doc_missing _ _ _ t); [left|].
  rewrite step4_build_from.
  destruct (lookup_positions _ t doc_id) as [positions|] eqn:Hpos; [|done].
  apply built_positions_some in Hpos as [_ Hin].
  by apply elem_of_doc_tokens in Hin as [? _].
Qed.

Lemma phrase_in_doc_out_of_range_witness :
  ["cat"] ≠ [] ∧ ¬ (0 ≤ -1 < len ["the cat of the cat"; "dog"])
  ∧ Step4.phrase_in_doc
      (Step4.build_inverted_index sample_stop_words id
         ["the cat of the cat"; "dog"]) ["cat"] (-1) = Ok false.
Proof.
  split; [discriminate|]. split; [vm_compute; intros [H _]; apply H; reflexivity|].
  apply (phrase_in_doc_out_of_range sample_stop_words id
           ["the cat of the cat"; "dog"] ["cat"] (-1));
    [discriminate | vm_compute; intros [H _]; apply H; reflexivity].
Defined.

(** C10.  The two [build_inverted_index] definitions return the same
    index whenever their normalizers agree on every document; the
    [seen_in_doc] set kept by the Step 4 loop does not reach the index. *)
Theorem builders_agree stop_words stem docs :
  (∀ text, text ∈ docs →
     Step4.normalize_tokens stop_words stem text
       = PhraseTest.basic_tokenizer text) →
  Step4.build_inverted_index stop_words stem docs
    = PhraseTest.build_inverted_index docs
  ∧ ∀ (inverted_index : index) doc_id tokens,
      fst (Step4.index_tokens inverted_index doc_id tokens)
        = PhraseTest.index_tokens inverted_index doc_id tokens.
Proof.
  intros Hsame. split; [|apply step4_index_tokens_fst].
  rewrite step4_build_from, test_build_from. by apply build_from_ext.
Qed.

Lemma builders_agree_witness :
  (∀ text, text ∈ PhraseTest.docs →
     Step4.normalize_tokens ∅ id text = PhraseTest.basic_tokenizer text)
  ∧ Step4.build_inverted_index ∅ id PhraseTest.docs
    = PhraseTest.build_inverted_index PhraseTest.docs.
Proof.
  assert (∀ text, text ∈ PhraseTest.docs →
            Step4.normalize_tokens ∅ id text
              = PhraseTest.basic_tokenizer text) as Hsame.
  { intros text Hin. unfold PhraseTest.docs in Hin.
    repeat (apply elem_of_cons in Hin as [->|Hin];
            [vm_compute; reflexivity|]).
    inversion Hin. }
  split; [exact Hsame|].
  exact (proj1 (builders_agree ∅ id PhraseTest.docs Hsame)).
Defined.

(** * Further properties of the cells *)

(** ** Phrase matching against the token streams *)

(** [phrase_in_doc] answers [True] exactly when the phrase is non-empty and
    one start position works for all its terms. *)
Lemma phrase_in_doc_true_iff (inverted_index : index) phrase_tokens doc_id :
  phrase_in_doc inverted_index phrase_tokens doc_id = Ok true ↔
    phrase_tokens ≠ [] ∧
    ∃ s, ∀ (k : nat) t,
      phrase_tokens !! k = Some t →
      ∃ positions,
        lookup_positions inverted_index t doc_id = Some positions ∧
        s + Z.of_nat k ∈ positions.
Proof.
  rewrite phrase_in_doc_unfold.
  destruct (mapM _ phrase_tokens) as [lists|] eqn:Hm.
  - apply mapM_Some in Hm. destruct lists as [|first_positions others].
    + apply Forall2_nil_inv_r in Hm as ->. split; [done | by intros [? _]].
    + split.
      * intros [= Hex]. apply existsb_exists in Hex as (s & Hs & Hok).
        split; [by inversion Hm|]. exists s. intros k t Ht.
        destruct (Forall2_lookup_l _ _ _ _ _ Hm Ht) as (positions & Hl & Hp).
        exists positions. split; [done|]. destruct k as [|k].
        -- injection Hl as <-. rewrite Z.add_0_r. by apply list_elem_of_In.
        -- apply (proj1 (anchor_ok_true _ _) Hok (S k)); [lia | done].
      * intros (Hne & s & Hs). f_equal. apply existsb_exists. exists s.
        split.
        -- destruct phrase_tokens as [|t0 later]; [done|].
           destruct (Hs 0%nat t0 eq_refl) as (positions & Hp & Hin).
           inversion Hm as [|? ? ? ? Hfirst _]; subst.
           assert (positions = first_positions) as -> by congruence.
           apply list_elem_of_In. by rewrite Z.add_0_r in Hin.
        -- apply anchor_ok_true. intros k positions Hk Hl.
           destruct (Forall2_lookup_r _ _ _ _ _ Hm Hl) as (t & Ht & Hp).
           destruct (Hs k t Ht) as (positions' & Hp' & Hin).
           by assert (positions' = positions) as -> by congruence.
  - split; [done|]. intros (_ & s & Hs).
    apply mapM_None_1, Exists_exists in Hm as (t & Hin & Hnone).
    apply list_elem_of_lookup in Hin as [k Hk].
    destruct (Hs k t Hk) as (positions & Hp & _). congruence.
Qed.

Lemma phrase_in_doc_raises_iff (inverted_index : index) phrase_tokens doc_id :
  phrase_in_doc inverted_index phrase_tokens doc_id = Raise IndexError ↔
    phrase_tokens = [].
Proof.
  split; [|intros ->; apply phrase_in_doc_empty].
  destruct phrase_tokens as [|t later]; [done|].
  destruct (phrase_in_doc_total inverted_index t later doc_id) as [b ->].
  done.
Qed.

Lemma run_at_iff_app {A} (phrase tokens : list A) :
  (∃ s : nat, ∀ (k : nat) t,
     phrase !! k = Some t → tokens !! (s + k)%nat = Some t) ↔
  ∃ before after, tokens = before ++ phrase ++ after.
Proof.
  split.
  - intros (s & Hs).
    exists (take s tokens), (drop (length phrase) (drop s tokens)).
    assert (phrase = take (length phrase) (drop s tokens)) as Hmid.
    { apply list_eq. intros i.
      destruct (decide (i < length phrase)%nat) as [Hi|Hi].
      - rewrite lookup_take_lt, lookup_drop by done.
        destruct (lookup_lt_is_Some_2 phrase i Hi) as [t Ht].
        by rewrite Ht, (Hs i t Ht).
      - rewrite lookup_take_ge by lia. apply lookup_ge_None. lia. }
    rewrite <- (take_drop s tokens) at 1. f_equal.
    rewrite <- (take_drop (length phrase) (drop s tokens)) at 1.
    by f_equal.
  - intros (before & after & ->). exists (length before).
    intros k t Hk. rewrite lookup_app_r by lia.
    replace (length before + k - length before)%nat with k by lia.
    by apply lookup_app_l_Some.
Qed.

Lemma built_member normalize docs t d p :
  (∃ positions,
     lookup_positions (build_from normalize ∅ 0 docs) t d = Some positions ∧
     p ∈ positions) ↔
  ∃ i : nat, p = Z.of_nat i ∧ doc_tokens normalize docs d !! i = Some t.
Proof.
  split.
  - intros (positions & [-> _]%built_positions_some & Hin).
    apply elem_of_occurrences in Hin as (i & -> & Hi). eauto.
  - intros (i & -> & Hi). eexists. split.
    + apply built_positions_some. split; [done|].
      apply list_elem_of_lookup. eauto.
    + apply elem_of_occurrences. eauto.
Qed.

Lemma built_phrase_in_doc normalize docs phrase_tokens d :
  phrase_in_doc (build_from normalize ∅ 0 docs) phrase_tokens d = Ok true ↔
    phrase_tokens ≠ [] ∧
    occurs_contiguously phrase_tokens (doc_tokens normalize docs d).
Proof.
  rewrite phrase_in_doc_true_iff. unfold occurs_contiguously.
  rewrite <- run_at_iff_app. split.
  - intros (Hne & s & Hs). split; [done|].
    destruct phrase_tokens as [|t0 later]; [done|].
    destruct (proj1 (built_member _ _ _ _ _) (Hs 0%nat t0 eq_refl))
      as (i0 & Hi0 & _).
    exists i0. intros k t Hk.
    destruct (proj1 (built_member _ _ _ _ _) (Hs k t Hk)) as (i & Hi & Ht).
    by replace (i0 + k)%nat with i by lia.
  - intros (Hne & s & Hs). split; [done|]. exists (Z.of_nat s).
    intros k t Hk. apply built_member. exists (s + k)%nat.
    split; [lia | by apply Hs].
Qed.

Lemma occurs_in_doc_tokens normalize docs t later d :
  occurs_contiguously (t :: later) (doc_tokens normalize docs d) ↔
    0 ≤ d ∧
    ∃ text, docs !! Z.to_nat d = Some text ∧
            occurs_contiguously (t :: later) (normalize text).
Proof.
  unfold doc_tokens. destruct (decide (0 ≤ d)) as [Hd|Hd].
  - destruct (docs !! Z.to_nat d) as [text|]; simpl.
    + split; [eauto | by intros (_ & ? & [= <-] & ?)].
    + split; [|by intros (_ & ? & ? & _)].
      intros (before & after & Heq). by destruct before.
  - split; [|by intros [? _]].
    intros (before & after & Heq). by destruct before.
Qed.

Lemma range_nil_iff {A} (docs : list A) : range 0 (len docs) = [] ↔ docs = [].
Proof.
  split; [|by intros ->].
  destruct docs as [|x docs]; [done|].
  rewrite range_0_cons by (unfold len; simpl; lia). done.
Qed.

Lemma built_search normalize docs phrase_tokens :
  phrase_tokens ≠ [] →
  ∃ matched_docs,
    search_docs (build_from normalize ∅ 0 docs) phrase_tokens
      (range 0 (len docs)) [] = Ok matched_docs ∧
    StronglySorted Z.lt matched_docs ∧
    ∀ d, d ∈ matched_docs ↔
           0 ≤ d ∧
           ∃ text, docs !! Z.to_nat d = Some text ∧
                   occurs_contiguously phrase_tokens (normalize text).
Proof.
  intros Hne. destruct phrase_tokens as [|t later]; [done|].
  eexists. split; [|split].
  - apply search_docs_ok. intros d _. apply phrase_in_doc_total.
  - apply strongly_sorted_filter, range_sorted.
  - intros d. simpl. rewrite list_elem_of_filter, built_phrase_in_doc.
    rewrite occurs_in_doc_tokens, elem_of_range. split.
    + by intros [[_ ?] _].
    + intros (Hd & text & Htext & Hocc). split; [eauto|].
      apply lookup_lt_Some in Htext. unfold len. lia.
Qed.

Lemma search_raises_iff (inverted_index : index) phrase_tokens {A}
    (docs : list A) e :
  search_docs inverted_index phrase_tokens (range 0 (len docs)) [] = Raise e ↔
    phrase_tokens = [] ∧ docs ≠ [].
Proof.
  destruct e. destruct phrase_tokens as [|t later].
  - destruct (range 0 (len docs)) as [|d ids] eqn:Hrange.
    + apply range_nil_iff in Hrange as ->. split; [done | by intros [_ ?]].
    + split; [|done]. intros _. split; [done|]. intros ->. done.
  - rewrite search_docs_ok by (intros d _; apply phrase_in_doc_total).
    split; [done | by intros [? _]].
Qed.

(** X1.  In the index built from [docs], a non-empty phrase is found in
    document [d] exactly when its terms occur as adjacent tokens, in order,
    in the normalized stream of that document. *)
Theorem phrase_in_doc_contiguous stop_words stem docs t later d :
  (∃ b, Step4.phrase_in_doc
          (Step4.build_inverted_index stop_words stem docs) (t :: later) d
        = Ok b)
  ∧ (Step4.phrase_in_doc
       (Step4.build_inverted_index stop_words stem docs) (t :: later) d
       = Ok true ↔
     0 ≤ d ∧
     ∃ text, docs !! Z.to_nat d = Some text ∧
             occurs_contiguously (t :: later)
               (Step4.normalize_tokens stop_words stem text)).
Proof.
  split; [apply phrase_in_doc_total|].
  unfold Step4.phrase_in_doc.
  rewrite step4_build_from, built_phrase_in_doc, occurs_in_doc_tokens.
  split; [by intros [_ ?] | done].
Qed.

(** X2.  [phrase_search] over the index built from the same documents, with a
    phrase whose normalized form is non-empty, returns in ascending order
    exactly the ids of the documents whose normalized stream contains the
    normalized phrase as adjacent tokens. *)
Theorem phrase_search_contiguous stop_words stem docs phrase :
  Step4.normalize_tokens stop_words stem phrase ≠ [] →
  ∃ matched_docs,
    Step4.phrase_search stop_words stem
      (Step4.build_inverted_index stop_words stem docs) phrase docs
      = Ok matched_docs ∧
    StronglySorted Z.lt matched_docs ∧
    ∀ d, d ∈ matched_docs ↔
           0 ≤ d ∧
           ∃ text, docs !! Z.to_nat d = Some text ∧
                   occurs_contiguously
                     (Step4.normalize_tokens stop_words stem phrase)
                     (Step4.normalize_tokens stop_words stem text).
Proof.
  intros Hne. unfold Step4.phrase_search. rewrite step4_build_from.
  by apply built_search.
Qed.

Lemma phrase_search_contiguous_witness :
  Step4.normalize_tokens sample_stop_words id "the cat" ≠ []
  ∧ ∃ matched_docs,
      Step4.phrase_search sample_stop_words id
        (Step4.build_inverted_index sample_stop_words id
           ["the cat of the cat"; "dog"])
        "the cat" ["the cat of the cat"; "dog"]
        = Ok matched_docs ∧
      StronglySorted Z.lt matched_docs.
Proof.
  assert (Step4.normalize_tokens sample_stop_words id "the cat" ≠ [])
    as Hne by (vm_compute; discriminate).
  split; [exact Hne|].
  destruct (phrase_search_contiguous sample_stop_words id
              ["the cat of the cat"; "dog"] "the cat" Hne)
    as (matched_docs & Hret & Hsorted & _).
  exists matched_docs. split; [exact Hret | exact Hsorted].
Defined.

(** X3.  The same for the test cell, whose normalizer is [basic_tokenizer]. *)
Theorem test_phrase_search_contiguous docs phrase :
  PhraseTest.basic_tokenizer phrase ≠ [] →
  ∃ matched_docs,
    PhraseTest.phrase_search (PhraseTest.build_inverted_index docs)
      phrase docs = Ok matched_docs ∧
    StronglySorted Z.lt matched_docs ∧
    ∀ d, d ∈ matched_docs ↔
           0 ≤ d ∧
           ∃ text, docs !! Z.to_nat d = Some text ∧
                   occurs_contiguously
                     (PhraseTest.basic_tokenizer phrase)
                     (PhraseTest.basic_tokenizer text).
Proof.
  intros Hne. unfold PhraseTest.phrase_search. rewrite test_build_from.
  by apply built_search.
Qed.

Lemma test_phrase_search_contiguous_witness :
  PhraseTest.basic_tokenizer "Machine  LEARNING!" ≠ []
  ∧ ∃ matched_docs,
      PhraseTest.phrase_search
        (PhraseTest.build_inverted_index PhraseTest.docs)
        "Machine  LEARNING!" PhraseTest.docs = Ok matched_docs ∧
      StronglySorted Z.lt matched_docs.
Proof.
  assert (PhraseTest.basic_tokenizer "Machine  LEARNING!" ≠ [])
    as Hne by (vm_compute; discriminate).
  split; [exact Hne|].
  destruct (test_phrase_search_contiguous PhraseTest.docs
              "Machine  LEARNING!" Hne)
    as (matched_docs & Hret & Hsorted & _).
  exists matched_docs. split; [exact Hret | exact Hsorted].
Defined.

(** X4.  [phrase_in_doc] raises exactly on the empty phrase, and [phrase_search]
    raises exactly when the normalized phrase is empty and there is at
    least one document; in every other case they return a value. *)
Theorem phrase_search_raises_iff
    stop_words stem (inverted_index : index) phrase docs :
  (∀ phrase_tokens doc_id e,
     Step4.phrase_in_doc inverted_index phrase_tokens doc_id = Raise e ↔
       phrase_tokens = [])
  ∧ (∀ e,
       Step4.phrase_search stop_words stem inverted_index phrase docs
         = Raise e ↔
       Step4.normalize_tokens stop_words stem phrase = [] ∧ docs ≠ []).
Proof.
  split.
  - intros phrase_tokens doc_id []. apply phrase_in_doc_raises_iff.
  - intros e. apply search_raises_iff.
Qed.

(** X5.  Whenever a phrase is found in a document, so is every non-empty run
    of adjacent terms of that phrase; this holds for every index. *)
Theorem sub_phrase_matches
    (inverted_index : index) before phrase_tokens after doc_id :
  phrase_tokens ≠ [] →
  Step4.phrase_in_doc inverted_index
    (before ++ phrase_tokens ++ after) doc_id = Ok true →
  Step4.phrase_in_doc inverted_index phrase_tokens doc_id = Ok true.
Proof.
  unfold Step4.phrase_in_doc. intros Hne.
  rewrite !phrase_in_doc_true_iff. intros (_ & s & Hs).
  split; [done|]. exists (s + Z.of_nat (length before)).
  intros k t Hk.
  destruct (Hs (length before + k)%nat t) as (positions & Hp & Hin).
  { rewrite lookup_app_r by lia.
    replace (length before + k - length before)%nat with k by lia.
    by apply lookup_app_l_Some. }
  exists positions. split; [done|].
  by replace (s + Z.of_nat (length before) + Z.of_nat k)
    with (s + Z.of_nat (length before + k)) by lia.
Qed.

Lemma sub_phrase_matches_witness :
  ["learning"; "is"] ≠ []
  ∧ Step4.phrase_in_doc (PhraseTest.build_inverted_index PhraseTest.docs)
      (["deep"] ++ ["learning"; "is"] ++ ["a"; "subset"]) 1 = Ok true
  ∧ Step4.phrase_in_doc (PhraseTest.build_inverted_index PhraseTest.docs)
      ["learning"; "is"] 1 = Ok true.
Proof.
  assert (Step4.phrase_in_doc
            (PhraseTest.build_inverted_index PhraseTest.docs)
            (["deep"] ++ ["learning"; "is"] ++ ["a"; "subset"]) 1 = Ok true)
    as Hfull by (vm_compute; reflexivity).
  split; [discriminate|]. split; [exact Hfull|].
  apply (sub_phrase_matches
           (PhraseTest.build_inverted_index PhraseTest.docs)
           ["deep"] ["learning"; "is"] ["a"; "subset"] 1);
    [discriminate | exact Hfull].
Defined.

(** ** Growing the collection *)

Lemma enumerate_from_app {A} start (l1 l2 : list A) :
  enumerate_from start (l1 ++ l2) =
    enumerate_from start l1 ++ enumerate_from (start + len l1) l2.
Proof.
  revert start. induction l1 as [|x l1 IH]; intros start; simpl.
  - unfold len. simpl. by rewrite Z.add_0_r.
  - rewrite IH. do 3 f_equal. unfold len. simpl length. lia.
Qed.

Lemma build_from_app normalize inverted_index start docs more :
  build_from normalize inverted_index start (docs ++ more) =
    build_from normalize (build_from normalize inverted_index start docs)
      (start + len docs) more.
Proof. unfold build_from. by rewrite enumerate_from_app, foldl_app. Qed.

Lemma doc_tokens_app normalize docs more d :
  doc_tokens normalize (docs ++ more) d =
    if decide (d < len docs) then doc_tokens normalize docs d
    else doc_tokens normalize more (d - len docs).
Proof.
  unfold doc_tokens, len. destruct (decide (0 ≤ d)) as [Hd|Hd].
  - destruct (decide (d < Z.of_nat (length docs))) as [Hlt|Hge].
    + by rewrite lookup_app_l by lia.
    + rewrite decide_True by lia. rewrite lookup_app_r by lia.
      by replace (Z.to_nat (d - Z.of_nat (length docs)))
        with (Z.to_nat d - length docs)%nat by lia.
  - rewrite decide_True by lia. done.
Qed.

Lemma phrase_in_doc_ext (index1 index2 : index) phrase_tokens d1 d2 :
  (∀ t, lookup_positions index1 t d1 = lookup_positions index2 t d2) →
  phrase_in_doc index1 phrase_tokens d1 = phrase_in_doc index2 phrase_tokens d2.
Proof.
  intros Hsame. rewrite !phrase_in_doc_unfold.
  replace (mapM (λ t, lookup_positions index1 t d1) phrase_tokens)
    with (mapM (λ t, lookup_positions index2 t d2) phrase_tokens); [done|].
  induction phrase_tokens as [|t later IH]; simpl; [done|].
  by rewrite IH, Hsame.
Qed.

(** X6.  Documents added at the end of the collection do not disturb the
    earlier ones: for a document id of the original collection the longer
    index answers every phrase as the original index does, and a document
    of the added part is answered as in an index of the added part alone,
    its id shifted by the length of the original collection. *)
Theorem build_append stop_words stem docs more phrase_tokens d :
  (d < len docs →
   Step4.phrase_in_doc
     (Step4.build_inverted_index stop_words stem (docs ++ more))
     phrase_tokens d
   = Step4.phrase_in_doc
       (Step4.build_inverted_index stop_words stem docs) phrase_tokens d)
  ∧ (len docs ≤ d →
     Step4.phrase_in_doc
       (Step4.build_inverted_index stop_words stem (docs ++ more))
       phrase_tokens d
     = Step4.phrase_in_doc
         (Step4.build_inverted_index stop_words stem more)
         phrase_tokens (d - len docs)).
Proof.
  unfold Step4.phrase_in_doc. rewrite !step4_build_from.
  split; intros Hd; apply phrase_in_doc_ext; intros t;
    rewrite !built_positions, doc_tokens_app.
  - by rewrite decide_True.
  - by rewrite decide_False by lia.
Qed.

Lemma build_append_witness :
  0 < len ["the cat of the cat"]
  ∧ Step4.phrase_in_doc
      (Step4.build_inverted_index sample_stop_words id
         (["the cat of the cat"] ++ ["dog"])) ["cat"; "cat"] 0
    = Step4.phrase_in_doc
        (Step4.build_inverted_index sample_stop_words id
           ["the cat of the cat"]) ["cat"; "cat"] 0.
Proof.
  assert (0 < len ["the cat of the cat"]) as Hd by (vm_compute; reflexivity).
  split; [exact Hd|].
  exact (proj1 (build_append sample_stop_words id
                  ["the cat of the cat"] ["dog"] ["cat"; "cat"] 0) Hd).
Defined.

(** X7.  A document whose normalized stream is empty (an empty string, only
    punctuation, only stop words) adds nothing: appending it leaves the
    built index unchanged. *)
Theorem build_append_empty_document stop_words stem docs text :
  Step4.normalize_tokens stop_words stem text = [] →
  Step4.build_inverted_index stop_words stem (docs ++ [text])
    = Step4.build_inverted_index stop_words stem docs.
Proof.
  intros Hempty. rewrite !step4_build_from, build_from_app.
  unfold build_from at 1. simpl. by rewrite Hempty.
Qed.

Lemma build_append_empty_document_witness :
  Step4.normalize_tokens sample_stop_words id "The... of?!" = []
  ∧ Step4.build_inverted_index sample_stop_words id
      (["the cat of the cat"] ++ ["The... of?!"])
    = Step4.build_inverted_index sample_stop_words id ["the cat of the cat"].
Proof.
  assert (Step4.normalize_tokens sample_stop_words id "The... of?!" = [])
    as Hempty by (vm_compute; reflexivity).
  split; [exact Hempty|].
  exact (build_append_empty_document sample_stop_words id
           ["the cat of the cat"] "The... of?!" Hempty).
Defined.

(** ** The text front-end *)

Ltac each_char c := destruct c as [[] [] [] [] [] [] [] []]; reflexivity.

Lemma lower_char_idem c : lower_char (lower_char c) = lower_char c.
Proof. each_char c. Qed.



Lemma space_lower_char c : is_space c = true → lower_char c = c.
Proof. revert c. intros [[] [] [] [] [] [] [] []]; done. Qed.


Lemma kept_space_or_alnum c :
  (if is_kept (lower_char c) then is_space (lower_char c) else true)
    = negb (is_alnum c).
Proof. each_char c. Qed.



Lemma lower_idem text : lower (lower text) = lower text.
Proof.
  induction text as [|c text IH]; simpl; [done|].
  by rewrite lower_char_idem, IH.
Qed.


Lemma app_char_nonempty word c : word +:+ String c EmptyString ≠ EmptyString.
Proof. by destruct word. Qed.




Lemma split_from_nil word text :
  split_from word text = [] ↔
    word = EmptyString ∧ string_forall is_space text = true.
Proof.
  revert word. induction text as [|c text IH]; intros word; simpl.
  - case_decide; [done|]. split; [done | by intros [? _]].
  - destruct (is_space c); simpl.
    + case_decide; [subst word; by rewrite IH | ].
      split; [done | intros [? _]; contradiction].
    + rewrite IH. split; [|by intros [_ ?]].
      intros [Habs _]. by apply app_char_nonempty in Habs.
Qed.

Lemma strip_lower_spaces text :
  string_forall is_space (strip_other (lower text))
    = string_forall (λ c, negb (is_alnum c)) text.
Proof.
  induction text as [|c text IH]; simpl; [done|].
  rewrite <- kept_space_or_alnum, <- IH.
  by destruct (is_kept (lower_char c)).
Qed.






(** X11.  For ASCII text the tokenizer returns no token exactly when the text
    has no letter and no digit. *)
Theorem basic_tokenizer_empty_iff text :
  ascii_text text →
  Step2.basic_tokenizer text = [] ↔
    string_forall (λ c, negb (is_alnum c)) text = true.
Proof.
  intros _. unfold Step2.basic_tokenizer, split.
  rewrite split_from_nil, strip_lower_spaces. split; [by intros [_ ?] | done].
Qed.

Lemma basic_tokenizer_empty_iff_witness :
  ascii_text " ...?! -- " ∧ Step2.basic_tokenizer " ...?! -- " = [].
Proof.
  split; [reflexivity|].
  apply (basic_tokenizer_empty_iff " ...?! -- "); reflexivity.
Defined.

(** X12.  Lower-casing an ASCII text beforehand changes nothing: the tokenizer
    and both normalizers return the same tokens, so [phrase_search] returns
    the same result for a phrase and for its lower-cased form. *)
Theorem tokenizing_ignores_case
    stop_words stem (inverted_index : index) text docs :
  ascii_text text →
  Step2.basic_tokenizer (lower text) = Step2.basic_tokenizer text
  ∧ Step3.normalize_tokens stop_words stem (lower text)
    = Step3.normalize_tokens stop_words stem text
  ∧ Step4.normalize_tokens stop_words stem (lower text)
    = Step4.normalize_tokens stop_words stem text
  ∧ Step4.phrase_search stop_words stem inverted_index (lower text) docs
    = Step4.phrase_search stop_words stem inverted_index text docs
  ∧ PhraseTest.phrase_search inverted_index (lower text) docs
    = PhraseTest.phrase_search inverted_index text docs.
Proof.
  intros _.
  unfold Step4.phrase_search, PhraseTest.phrase_search,
    Step2.basic_tokenizer, PhraseTest.basic_tokenizer,
    Step3.normalize_tokens, Step4.normalize_tokens.
  by rewrite lower_idem.
Qed.

Lemma tokenizing_ignores_case_witness :
  ascii_text "Machine LEARNING"
  ∧ Step2.basic_tokenizer (lower "Machine LEARNING")
    = Step2.basic_tokenizer "Machine LEARNING".
Proof.
  split; [reflexivity|].
  exact (proj1 (tokenizing_ignores_case ∅ id ∅ "Machine LEARNING" []
                  eq_refl)).
Defined.

(** X13.  With no stop words and a stemmer that changes nothing, the normalizers
    of Steps 3 and 4 return the tokens of [basic_tokenizer], and the two
    builders return the same index for every collection. *)
Theorem plain_normalizer_is_tokenizer text docs :
  Step3.normalize_tokens ∅ id text = Step2.basic_tokenizer text
  ∧ Step4.normalize_tokens ∅ id text = PhraseTest.basic_tokenizer text
  ∧ Step4.build_inverted_index ∅ id docs
    = PhraseTest.build_inverted_index docs.
Proof.
  assert (∀ text, Step4.normalize_tokens ∅ id text
                  = PhraseTest.basic_tokenizer text) as Hsame.
  { intros text'. unfold Step4.normalize_tokens, PhraseTest.basic_tokenizer.
    rewrite list_fmap_id.
    induction (split (strip_other (lower text'))) as [|t tokens IH];
      [done|].
    rewrite filter_cons_True by set_solver. by rewrite IH. }
  split; [apply Hsame|]. split; [apply Hsame|].
  rewrite step4_build_from, test_build_from.
  apply build_from_ext. intros text' _. apply Hsame.
Qed.

(** ** [clean_text] *)

Lemma word_lower_char c :
  Step1.is_word c = true → Step1.is_word (lower_char c) = true.
Proof. revert c. intros [[] [] [] [] [] [] [] []]; done. Qed.

Lemma word_lower_clean c :
  Step1.is_word c = true → is_clean (lower_char c) = true.
Proof. revert c. intros [[] [] [] [] [] [] [] []]; done. Qed.

Lemma word_lower_not_space c :
  Step1.is_word c = true → (code (lower_char c) =? 32)%N = false.
Proof. revert c. intros [[] [] [] [] [] [] [] []]; done. Qed.

Lemma sub_nonword_clean in_run text :
  string_forall is_clean (lower (Step1.sub_nonword in_run text)) = true.
Proof.
  revert in_run. induction text as [|c text IH]; intros in_run; simpl;
    [done|].
  destruct (Step1.is_word c) eqn:Hword; simpl.
  - by rewrite word_lower_clean, IH.
  - destruct in_run; simpl; [apply IH|]. by rewrite IH.
Qed.

Lemma sub_nonword_spaces in_run text :
  has_double_space (lower (Step1.sub_nonword in_run text)) = false
  ∧ (in_run = true →
     starts_with_space (lower (Step1.sub_nonword in_run text)) = false).
Proof.
  revert in_run. induction text as [|c text IH]; intros in_run; simpl;
    [done|].
  destruct (Step1.is_word c) eqn:Hword; simpl.
  - rewrite word_lower_not_space by done. simpl.
    split; [apply IH | done].
  - destruct in_run; simpl; [apply IH|].
    destruct (IH true) as [-> ->]; done.
Qed.

Lemma sub_nonword_fixed in_run text :
  Step1.sub_nonword in_run (lower (Step1.sub_nonword in_run text))
    = lower (Step1.sub_nonword in_run text).
Proof.
  revert in_run. induction text as [|c text IH]; intros in_run; simpl;
    [done|].
  destruct (Step1.is_word c) eqn:Hword; simpl.
  - by rewrite word_lower_char, IH.
  - destruct in_run; simpl; [apply IH|]. by rewrite IH.
Qed.

(** X14.  On ASCII text, [clean_text] returns only lower-case letters, digits,
    underscores and single spaces (never two spaces in a row), and cleaning
    an already cleaned text changes nothing. *)
Theorem clean_text_shape text :
  ascii_text text →
  string_forall is_clean (Step1.clean_text text) = true
  ∧ has_double_space (Step1.clean_text text) = false
  ∧ Step1.clean_text (Step1.clean_text text) = Step1.clean_text text.
Proof.
  intros _. unfold Step1.clean_text. split; [apply sub_nonword_clean|].
  split; [apply sub_nonword_spaces|].
  by rewrite sub_nonword_fixed, lower_idem.
Qed.

Lemma clean_text_shape_witness :
  ascii_text "Hello,  World!! It's_2024..."
  ∧ Step1.clean_text "Hello,  World!! It's_2024..."
    = "hello world it s_2024 "
  ∧ Step1.clean_text (Step1.clean_text "Hello,  World!! It's_2024...")
    = Step1.clean_text "Hello,  World!! It's_2024...".
Proof.
  split; [reflexivity|]. split; [reflexivity|].
  exact (proj2 (proj2 (clean_text_shape "Hello,  World!! It's_2024..."
                         eq_refl))).
Defined.

(** ** Round trip and stop words *)

(** X15.  Searching the index for the text of one of its own documents finds
    that document, provided the document has at least one normalized
    token. *)
Theorem document_finds_itself stop_words stem docs (d : nat) text :
  docs !! d = Some text →
  Step4.normalize_tokens stop_words stem text ≠ [] →
  ∃ matched_docs,
    Step4.phrase_search stop_words stem
      (Step4.build_inverted_index stop_words stem docs) text docs
      = Ok matched_docs ∧
    Z.of_nat d ∈ matched_docs.
Proof.
  intros Hdoc Hne. unfold Step4.phrase_search. rewrite step4_build_from.
  destruct (built_search (Step4.normalize_tokens stop_words stem) docs _ Hne)
    as (matched_docs & Hret & _ & Hmem).
  exists matched_docs. split; [done|]. apply Hmem. split; [lia|].
  exists text. rewrite Nat2Z.id. split; [done|].
  exists [], []. by rewrite app_nil_r.
Qed.

Lemma document_finds_itself_witness :
  ["the cat of the cat"; "dog"] !! 1%nat = Some "dog"
  ∧ Step4.normalize_tokens sample_stop_words id "dog" ≠ []
  ∧ ∃ matched_docs,
      Step4.phrase_search sample_stop_words id
        (Step4.build_inverted_index sample_stop_words id
           ["the cat of the cat"; "dog"]) "dog"
        ["the cat of the cat"; "dog"] = Ok matched_docs ∧
      Z.of_nat 1 ∈ matched_docs.
Proof.
  assert (Step4.normalize_tokens sample_stop_words id "dog" ≠ []) as Hne
    by (vm_compute; discriminate).
  split; [reflexivity|]. split; [exact Hne|].
  exact (document_finds_itself sample_stop_words id
           ["the cat of the cat"; "dog"] 1 "dog" eq_refl Hne).
Defined.

(** X16.  [normalize_tokens] returns no token exactly when every token of
    [basic_tokenizer] is a stop word; so [phrase_search] raises exactly for
    such a phrase on a non-empty collection. *)
Theorem stop_word_phrase_raises
    stop_words stem (inverted_index : index) phrase docs :
  (Step4.normalize_tokens stop_words stem phrase = [] ↔
     ∀ word, word ∈ Step2.basic_tokenizer phrase → word ∈ stop_words)
  ∧ (Step4.phrase_search stop_words stem inverted_index phrase docs
       = Raise IndexError ↔
     (∀ word, word ∈ Step2.basic_tokenizer phrase → word ∈ stop_words)
     ∧ docs ≠ []).
Proof.
  assert (Step4.normalize_tokens stop_words stem phrase = [] ↔
            ∀ word, word ∈ Step2.basic_tokenizer phrase → word ∈ stop_words)
    as Hempty.
  { unfold Step4.normalize_tokens, Step2.basic_tokenizer.
    assert (∀ l : list string, stem <$> l = [] ↔ l = []) as ->
      by (by intros []).
    induction (split (strip_other (lower phrase))) as [|t tokens IH].
    - split; [|done]. by intros _ word ?%elem_of_nil.
    - rewrite filter_cons. destruct (decide (t ∉ stop_words)) as [Hout|Hin].
      + split; [done|]. intros Hall. destruct Hout. apply Hall. left.
      + rewrite IH. apply dec_stable in Hin. split.
        * intros Hall word [->|?]%elem_of_cons; [done | by apply Hall].
        * intros Hall word ?. apply Hall. by right. }
  split; [done|]. rewrite <- Hempty. apply search_raises_iff.
Qed.
